(** * keycloakify: the jar packaging tool (src/bin/tools/jar.ts)

    A shallow embedding of [jar.ts]: the [trimIndent] helper, the two
    synthesized archive records ([manifest], [pomProps]), the object-mode
    [Transform] built by [pathToRecord] and the standalone entry point.

    Strings are JavaScript strings (sequences of UTF-16 code units),
    buffers are byte sequences, and the stream is a small state monad over
    the readable side of the [Transform]. *)

From Stdlib Require Import NArith List String Ascii Lia.
From stdpp Require Import base list gmap.
From Equations Require Import Equations.

Local Open Scope N_scope.

(** ** JavaScript values used by the tool *)

Module JS.

(** A JavaScript string is a sequence of 16-bit code units. *)
Definition code_unit := N.
Definition js_string := list code_unit.

(** String literals of the source, written as Rocq strings. *)
Definition lit (s : string) : js_string :=
  map N_of_ascii (list_ascii_of_string s).

Definition LF : code_unit := 10.
Definition SPACE : code_unit := 32.
Definition SLASH : code_unit := 47.

(** The class [\s] of a JavaScript regular expression: WhiteSpace and
    LineTerminator code points (all of them in the basic plane). *)
Definition is_space (c : code_unit) : bool :=
  ((9 <=? c) && (c <=? 13))
  || (c =? 32) || (c =? 160) || (c =? 5760)
  || ((8192 <=? c) && (c <=? 8202))
  || (c =? 8232) || (c =? 8233) || (c =? 8239) || (c =? 8287)
  || (c =? 12288) || (c =? 65279).

(** An error value, identified by its name or code. *)
Inductive js_error := JsError (name : js_string).

(** [s.startsWith(p)] *)
Fixpoint starts_with (p s : js_string) : bool :=
  match p, s with
  | [], _ => true
  | _ :: _, [] => false
  | a :: p', b :: s' => (a =? b) && starts_with p' s'
  end.

(** [h.includes(n)] *)
Fixpoint includes (n h : js_string) : bool :=
  match h with
  | [] => starts_with n []
  | _ :: h' => starts_with n h || includes n h'
  end.

(** [a === b] on strings *)
Definition str_eqb (a b : js_string) : bool := bool_decide (a = b).

(** [Array.prototype.join] on an array of strings *)
Fixpoint join (d : js_string) (l : list js_string) : js_string :=
  match l with
  | [] => []
  | [x] => x
  | x :: rest => x ++ d ++ join d rest
  end.

(** Put one more code unit in front of the piece being read. *)
Definition cons_head (c : code_unit) (l : list js_string) : list js_string :=
  match l with
  | [] => [[c]]
  | p :: ps => (c :: p) :: ps
  end.

(** [String.prototype.split] with a string separator and no limit: the
    occurrences of the separator are found from left to right, without
    overlap; an empty separator splits into single code units. *)
Equations? split (sep s : js_string) : list js_string by wf (length s) lt :=
  split [] s := map (fun c => [c]) s;
  split (d :: sep') [] := [[]];
  split (d :: sep') (c :: r) with starts_with (d :: sep') (c :: r) := {
    | true := [] :: split (d :: sep') (drop (length sep') r);
    | false := cons_head c (split (d :: sep') r) }.
Proof.
  rewrite length_drop. lia.
Qed.

(** The rest of the subject after a maximal run of [\s]. *)
Fixpoint skip_space (s : js_string) : js_string :=
  match s with
  | [] => []
  | c :: r => if is_space c then skip_space r else s
  end.

Definition starts_with_space (s : js_string) : bool :=
  match s with
  | [] => false
  | c :: _ => is_space c
  end.

(** [s.replace(/(\n)\s+/g, "$1")]: at every position, from left to right,
    a line feed followed by at least one [\s] matches together with the
    whole run of [\s] after it (the quantifier is greedy and nothing
    follows it), and the match is replaced by its group 1, the line feed. *)
Equations? replace_nl_space (s : js_string) : js_string by wf (length s) lt :=
  replace_nl_space [] := [];
  replace_nl_space (c :: r) with ((c =? LF) && starts_with_space r) := {
    | true := LF :: replace_nl_space (skip_space r);
    | false := c :: replace_nl_space r }.
Proof.
  clear. induction r as [|d r IH]; simpl; [lia|].
  destruct (is_space d); simpl; lia.
Qed.

(** The same replacement as one pass over the subject: [after_nl] holds
    between a line feed and the first code unit after it that is not [\s],
    and the [\s] read while it holds are dropped. *)
Fixpoint scan_lines (after_nl : bool) (s : js_string) : js_string :=
  match s with
  | [] => []
  | c :: r =>
      if after_nl && is_space c then scan_lines true r
      else c :: scan_lines (c =? LF) r
  end.

(** The value of [after_nl] at the end of the pass. *)
Fixpoint scan_state (after_nl : bool) (s : js_string) : bool :=
  match s with
  | [] => after_nl
  | c :: r =>
      if after_nl && is_space c then scan_state true r
      else scan_state (c =? LF) r
  end.

(** No line feed of the string is directly followed by a [\s]. *)
Fixpoint nl_space_free (s : js_string) : bool :=
  match s with
  | [] => true
  | c :: r => negb ((c =? LF) && starts_with_space r) && nl_space_free r
  end.

(** Only ASCII code units, none of them a line feed. *)
Definition single_line_ascii (s : js_string) : bool :=
  forallb (fun c => (c <? 0x80) && negb (c =? LF)) s.

(** A [Buffer] is a sequence of bytes. *)
Definition Buffer := list N.

Definition is_high_surrogate (c : code_unit) : bool :=
  (0xD800 <=? c) && (c <=? 0xDBFF).
Definition is_low_surrogate (c : code_unit) : bool :=
  (0xDC00 <=? c) && (c <=? 0xDFFF).

(** U+FFFD, which replaces a surrogate that has no partner. *)
Definition utf8_replacement : Buffer := [0xEF; 0xBF; 0xBD].

Definition utf8_3 (c : N) : Buffer :=
  [N.lor 0xE0 (N.shiftr c 12);
   N.lor 0x80 (N.land (N.shiftr c 6) 0x3F);
   N.lor 0x80 (N.land c 0x3F)].

Definition utf8_4 (cp : N) : Buffer :=
  [N.lor 0xF0 (N.shiftr cp 18);
   N.lor 0x80 (N.land (N.shiftr cp 12) 0x3F);
   N.lor 0x80 (N.land (N.shiftr cp 6) 0x3F);
   N.lor 0x80 (N.land cp 0x3F)].

(** [Buffer.from(s)]: the UTF-8 encoding of the string. *)
Fixpoint Buffer_from (s : js_string) : Buffer :=
  match s with
  | [] => []
  | c :: r =>
      if c <? 0x80 then c :: Buffer_from r
      else if c <? 0x800 then
        [N.lor 0xC0 (N.shiftr c 6); N.lor 0x80 (N.land c 0x3F)] ++ Buffer_from r
      else if is_high_surrogate c then
        match r with
        | d :: r' =>
            if is_low_surrogate d then
              utf8_4 (0x10000 + N.shiftl (c - 0xD800) 10 + (d - 0xDC00))
                ++ Buffer_from r'
            else utf8_replacement ++ Buffer_from r
        | [] => utf8_replacement
        end
      else if is_low_surrogate c then utf8_replacement ++ Buffer_from r
      else utf8_3 c ++ Buffer_from r
  end.

End JS.

Import JS.

(** ** Node's [path] module

    [jar.ts] imports [relative] and [sep] from Node's [path] module, which
    is the POSIX or the Windows implementation depending on the platform.
    The tool is parameterised by that module. *)

Module Path.

Record PathModule := {
  (** [path.sep], the platform's segment separator *)
  sep : js_string;
  (** [path.relative(from, to)] *)
  relative : js_string -> js_string -> js_string
}.

(** *** The POSIX implementation, [path.posix]

    A model of Node's library at the level of path segments, for a process
    whose working directory is the absolute path [cwd]. *)

Definition nonempty (s : js_string) : bool :=
  match s with
  | [] => false
  | _ :: _ => true
  end.

(** The segments between the slashes of a path. *)
Definition segments (p : js_string) : list js_string :=
  List.filter nonempty (split (lit "/") p).

(** Removal of [.] and [..] from an absolute path; [done] holds the
    segments kept so far, the last one first. A [..] at the root stays at
    the root. *)
Fixpoint normalize_segments (done todo : list js_string) : list js_string :=
  match todo with
  | [] => rev done
  | s :: rest =>
      if str_eqb s (lit ".") then normalize_segments done rest
      else if str_eqb s (lit "..") then normalize_segments (tail done) rest
      else normalize_segments (s :: done) rest
  end.

(** The segments of [path.resolve(p)]: a relative [p] is taken from the
    working directory. *)
Definition resolved_segments (cwd p : js_string) : list js_string :=
  normalize_segments []
    (segments (if starts_with (lit "/") p then p else cwd ++ lit "/" ++ p)).

(** [path.resolve(p)] *)
Definition resolve (cwd p : js_string) : js_string :=
  lit "/" ++ join (lit "/") (resolved_segments cwd p).

(** What is left of two segment lists after their common prefix. *)
Fixpoint strip_common (fs ts : list js_string)
  : list js_string * list js_string :=
  match fs, ts with
  | f :: fs', t :: ts' =>
      if str_eqb f t then strip_common fs' ts' else (fs, ts)
  | _, _ => (fs, ts)
  end.

(** [path.posix.relative(from, to)]: both paths are resolved, one [..] is
    emitted for every segment of [from] below the common directory, and
    then the segments of [to] below it. *)
Definition posix_relative (cwd from to : js_string) : js_string :=
  if str_eqb from to then []
  else if str_eqb (resolve cwd from) (resolve cwd to) then []
  else
    let '(fs, ts) :=
      strip_common (resolved_segments cwd from) (resolved_segments cwd to) in
    join (lit "/") (repeat (lit "..") (length fs) ++ ts).

Definition posix (cwd : js_string) : PathModule :=
  {| sep := lit "/"; relative := posix_relative cwd |}.

Definition slash_free (s : js_string) : bool :=
  forallb (fun c => negb (c =? SLASH)) s.

(** A segment of a normalized path: not empty, not [.] or [..], and
    without a slash. *)
Definition plain_segment (s : js_string) : bool :=
  nonempty s
  && negb (str_eqb s (lit ".")) && negb (str_eqb s (lit ".."))
  && slash_free s.

(** The absolute path made of the given segments. *)
Definition absolute (l : list js_string) : js_string :=
  lit "/" ++ join (lit "/") l.

End Path.

Import Path.

(** ** The object-mode [Transform] stream *)

Module Stream.

(** The objects that [pathToRecord] pushes downstream: [{ filename, path }]
    for a file found by the walk, [{ path, data }] for the two synthesized
    [ZipSource] records. *)
Inductive Chunk :=
| PathRecord (filename path : js_string)
| DataRecord (path : js_string) (data : Buffer).

(** The readable side of the stream: what has been pushed so far, whether
    the end of the sequence ([push(null)]) has been signalled, and the error
    the stream was destroyed with. *)
Record Transform := {
  readable : list Chunk;
  readableEnded : bool;
  errored : option js_error
}.

Definition init : Transform :=
  {| readable := []; readableEnded := false; errored := None |}.

Definition ERR_STREAM_PUSH_AFTER_EOF : js_error :=
  JsError (lit "ERR_STREAM_PUSH_AFTER_EOF").

(** Stream methods run in the state of the stream ([this]). *)
Definition M (A : Type) : Type := Transform -> A * Transform.

Definition ret {A} (x : A) : M A := fun st => (x, st).

Definition bind {A B} (m : M A) (k : A -> M B) : M B :=
  fun st => let '(x, st') := m st in k x st'.

Notation "x <- m ;; k" := (bind m (fun x => k))
  (at level 100, m at next level, right associativity).
Notation "m ;; k" := (bind m (fun _ => k))
  (at level 100, right associativity).

(** [this.push(chunk)]: [null] ends the sequence, and does nothing when it
    has ended already; a chunk pushed after the end is an error and adds
    nothing; a destroyed stream ignores pushes. *)
Definition push (chunk : option Chunk) : M unit := fun st =>
  match errored st with
  | Some _ => (tt, st)
  | None =>
      match chunk with
      | None =>
          (tt, {| readable := readable st; readableEnded := true;
                  errored := None |})
      | Some c =>
          if readableEnded st then
            (tt, {| readable := readable st; readableEnded := true;
                    errored := Some ERR_STREAM_PUSH_AFTER_EOF |})
          else
            (tt, {| readable := readable st ++ [c]; readableEnded := false;
                    errored := None |})
      end
  end.

Definition ERR_STREAM_WRITE_AFTER_END : js_error :=
  JsError (lit "ERR_STREAM_WRITE_AFTER_END").

Definition ERR_STREAM_DESTROYED : js_error :=
  JsError (lit "ERR_STREAM_DESTROYED").

(** [stream.write(chunk)] is refused, before the [transform] method is
    called, when the writable side has ended or the stream was destroyed.
    The readable side of the stream of [pathToRecord] ends in [final] only,
    which runs once the writable side has ended: an ended readable side
    stands for an ended writable side. *)
Definition write_refused (st : Transform) : option js_error :=
  if readableEnded st then Some ERR_STREAM_WRITE_AFTER_END
  else
    match errored st with
    | Some _ => Some ERR_STREAM_DESTROYED
    | None => None
    end.

(** The stream is destroyed with an error; the first error stays. *)
Definition destroy (e : js_error) (st : Transform) : Transform :=
  {| readable := readable st; readableEnded := readableEnded st;
     errored := Some (default e (errored st)) |}.

(** The [path] property of a pushed object, and its [data] if it has one. *)
Definition chunk_path (c : Chunk) : js_string :=
  match c with
  | PathRecord _ p => p
  | DataRecord p _ => p
  end.

Definition chunk_data (c : Chunk) : option Buffer :=
  match c with
  | PathRecord _ _ => None
  | DataRecord _ d => Some d
  end.

(** What a stream method did with the callback it was given. *)
Inductive Callback :=
| NotCalled
| Called (err : option js_error).

End Stream.

Import Stream.

(** ** [jar] *)

Module Jar.

Record JarArgs := {
  rootPath : js_string;
  targetPath : js_string;
  groupId : js_string;
  artifactId : js_string;
  version : js_string
}.

(** Trim leading whitespace from every line *)
Definition trimIndent (s : js_string) : js_string := replace_nl_space s.

(** The line break and indentation between two lines of the template
    literals of [jar]: they are indented by 17 spaces in the source. *)
Definition nl : js_string := LF :: repeat SPACE 17.

Definition manifest_text : js_string :=
  lit "Manifest-Version: 1.0" ++ nl ++
  lit "Archiver-Version: Plexus Archiver" ++ nl ++
  lit "Created-By: Keycloakify" ++ nl ++
  lit "Built-By: unknown" ++ nl ++
  lit "Build-Jdk: 19.0.0".

Definition manifest : Chunk :=
  DataRecord (lit "META-INF/MANIFEST.MF")
             (Buffer_from (trimIndent manifest_text)).

Section Build.

(** The path module of the platform, the arguments of the call, and the
    string that the template literal gets from [new Date()] when [jar] is
    called. *)
Context (P : PathModule) (args : JarArgs) (now : js_string).

Definition pomProps_text : js_string :=
  lit "# Generated by keycloakify" ++ nl ++
  lit "# " ++ now ++ nl ++
  lit "artifactId=" ++ artifactId args ++ nl ++
  lit "groupId=" ++ groupId args ++ nl ++
  lit "version=" ++ version args.

Definition pomProps : Chunk :=
  DataRecord
    (lit "META-INF/maven/" ++ groupId args ++ lit "/" ++ artifactId args
       ++ lit "/pom.properties")
    (Buffer_from (trimIndent pomProps_text)).

(** [relative(rootPath, path).split(sep).join("/")] *)
Definition filename_of (path : js_string) : js_string :=
  join (lit "/") (split (sep P) (relative P (rootPath args) path)).

(** The [transform] method of [pathToRecord] *)
Definition transform (path : js_string) : M Callback :=
  let filename := filename_of path in
  push (Some (PathRecord filename path)) ;;
  ret (Called None).

(** The [final] method of [pathToRecord]; it does not call its callback. *)
Definition final : M Callback :=
  push (Some manifest) ;;
  push (Some pomProps) ;;
  push None ;;
  ret NotCalled.

(** The writable side: the chunks written to the stream are given to
    [transform] one at a time, in order, each after the callback of the one
    before; an error given to a callback stops the stream. A write that the
    stream refuses does not reach [transform]: its error goes to the
    callback of the write and destroys the stream. *)
Fixpoint write_all (paths : list js_string) : M Callback :=
  match paths with
  | [] => ret (Called None)
  | p :: rest => fun st =>
      match write_refused st with
      | Some e => (Called (Some e), destroy e st)
      | None =>
          (cb <- transform p ;;
           match cb with
           | Called None => write_all rest
           | _ => ret cb
           end) st
      end
  end.

(** [pathToRecord()] fed with the paths of the walk and then ended: [final]
    runs once every written chunk has been transformed. *)
Definition pathToRecord (paths : list js_string) : Transform :=
  let '(cb, st) := write_all paths init in
  match cb with
  | Called None => snd (final st)
  | Called (Some e) =>
      {| readable := readable st; readableEnded := readableEnded st;
         errored := Some e |}
  | NotCalled => st
  end.

(** The sequence that the next stage of the pipeline reads: every chunk
    pushed before the end of the sequence. *)
Definition emitted (paths : list js_string) : list Chunk :=
  readable (pathToRecord paths).

End Build.

End Jar.

Import Jar.

(** ** Standalone usage *)

Module Cli.

(** The part of the Node process that the entry point reads and writes. *)
Record Process := {
  argv : list js_string;
  env : gmap js_string js_string;
  stderr : list js_error;
  exitCode : option N
}.

(** The object that [main] passes to [jar]. An element of [process.argv]
    that is absent reads as [undefined], here [None]. *)
Record MainArgs := {
  main_rootPath : option js_string;
  main_targetPath : option js_string;
  main_artifactId : js_string;
  main_groupId : js_string;
  main_version : js_string
}.

(** [a ?? b] for a string that may be undefined *)
Definition nullish (a : option js_string) (b : js_string) : js_string :=
  default b a.

Definition main_args (p : Process) : MainArgs :=
  {| main_rootPath := argv p !! 2%nat;
     main_targetPath := argv p !! 3%nat;
     main_artifactId := nullish (env p !! lit "ARTIFACT_ID") (lit "artifact");
     main_groupId := nullish (env p !! lit "GROUP_ID") (lit "group");
     main_version := nullish (env p !! lit "VERSION") (lit "1.0.0") |}.

(** How the promise returned by [jar] settles. *)
Inductive Outcome :=
| Fulfilled
| Rejected (e : js_error).

(** [console.error(e)] *)
Definition console_error (e : js_error) (p : Process) : Process :=
  {| argv := argv p; env := env p; stderr := stderr p ++ [e];
     exitCode := exitCode p |}.

(** [main().catch(e => console.error(e))], for a [jar] that settles as
    [jar_run] says: a rejection is handled by the callback of [catch]. *)
Definition standalone (jar_run : MainArgs -> Outcome) (p : Process) : Process :=
  match jar_run (main_args p) with
  | Fulfilled => p
  | Rejected e => console_error e p
  end.

(** The status the process exits with once nothing is left to run:
    [process.exitCode], or 0 when it was never set. *)
Definition exit_status (p : Process) : N := default 0 (exitCode p).

End Cli.

Import Cli.

(** ** The pipeline *)

Module Pipeline.

(** How far the promise of [await pipeline(...)] has come. *)
Inductive Promise :=
| Pending
| Settled (o : Outcome).

(** What [pipeline] learns from the stream of [pathToRecord], fed with the
    paths of the walk and then ended. An error of the stream rejects the
    promise. Without one, [pipeline] waits for the stream to be done on both
    sides: the writable side finishes when [final] calls its callback, the
    readable side ends with [push(null)]. The promise of [jar] is the
    promise of this [pipeline], which cannot be fulfilled before each of
    its streams is done; the other streams (the walk, [zip], the file) are
    not part of this model. *)
Definition adapter_promise (P : PathModule) (args : JarArgs)
    (now : js_string) (paths : list js_string) : Promise :=
  let '(cb, st) := write_all P args paths init in
  match cb with
  | Called (Some e) => Settled (Rejected e)
  | NotCalled => Pending
  | Called None =>
      let '(cb_final, st') := final args now st in
      match errored st' with
      | Some e => Settled (Rejected e)
      | None =>
          match cb_final with
          | Called (Some e) => Settled (Rejected e)
          | Called None =>
              if readableEnded st' then Settled Fulfilled else Pending
          | NotCalled => Pending
          end
      end
  end.

End Pipeline.

Import Pipeline.

(** ** Shapes of strings used in the statements *)

Module Shape.

(** Only [\s] code units. *)
Definition all_space (s : js_string) : bool := forallb is_space s.

(** No line feed. *)
Definition lf_free (s : js_string) : bool :=
  forallb (fun c => negb (c =? LF)) s.

(** The last code unit is a line feed. *)
Definition ends_with_lf (s : js_string) : bool :=
  match last s with
  | Some c => c =? LF
  | None => false
  end.

(** The code units that are not [\s], in order. *)
Definition non_space (s : js_string) : js_string :=
  List.filter (fun c => negb (is_space c)) s.

End Shape.

Import Shape.

(** * Properties *)

(** ** The definitions at work *)

Example split_trailing_separator :
  split (lit "/") (lit "a/b//c/") = [lit "a"; lit "b"; []; lit "c"; []].
Proof. reflexivity. Qed.

Example split_long_separator :
  split (lit "ab") (lit "xabyababz") = [lit "x"; lit "y"; []; lit "z"].
Proof. reflexivity. Qed.

Example Buffer_from_utf8 :
  Buffer_from [0x41; 0xE9; 0x20AC; 0xD83D; 0xDE00; 0xD800] =
    [0x41; 0xC3; 0xA9; 0xE2; 0x82; 0xAC; 0xF0; 0x9F; 0x98; 0x80;
     0xEF; 0xBF; 0xBD].
Proof. reflexivity. Qed.

Example trimIndent_manifest :
  trimIndent manifest_text =
    lit "Manifest-Version: 1.0" ++ [LF] ++
    lit "Archiver-Version: Plexus Archiver" ++ [LF] ++
    lit "Created-By: Keycloakify" ++ [LF] ++
    lit "Built-By: unknown" ++ [LF] ++
    lit "Build-Jdk: 19.0.0".
Proof. vm_compute. reflexivity. Qed.

Example trimIndent_blank_lines :
  trimIndent (lit "a" ++ [LF; LF; SPACE; 9] ++ lit "b " ++ [LF] ++ lit "c")
    = lit "a" ++ [LF] ++ lit "b " ++ [LF] ++ lit "c".
Proof. vm_compute. reflexivity. Qed.

Example posix_relative_sibling :
  posix_relative (lit "/")
    (lit "/data/orandea/test/aaa") (lit "/data/orandea/impl/bbb")
    = lit "../../impl/bbb".
Proof. vm_compute. reflexivity. Qed.

Example posix_relative_from_cwd :
  posix_relative (lit "/home/u") (lit "theme/../x/") (lit "/home/u/x/./a/b.txt")
    = lit "a/b.txt".
Proof. vm_compute. reflexivity. Qed.

(** A tree with [a.txt] and [sub/b.txt], packaged for group [g] and
    artifact [a]: four records, with these archive names. *)
Example emitted_two_files :
  let args := {| rootPath := lit "/srv/theme"; targetPath := lit "/tmp/a.jar";
                 groupId := lit "g"; artifactId := lit "a";
                 version := lit "1.0.0" |} in
  let name c := match c with
                | PathRecord filename _ => filename
                | DataRecord path _ => path
                end in
  map name
    (emitted (posix (lit "/")) args (lit "Sun Nov 01 2026")
       [lit "/srv/theme/a.txt"; lit "/srv/theme/sub/b.txt"])
  = [lit "a.txt"; lit "sub/b.txt"; lit "META-INF/MANIFEST.MF";
     lit "META-INF/maven/g/a/pom.properties"].
Proof. vm_compute. reflexivity. Qed.

(** ** Strings *)

Section Strings.

Implicit Types (s x y n h : js_string) (c : code_unit).

Lemma starts_with_spec n : forall h,
  starts_with n h = true <-> exists post, h = n ++ post.
Proof.
  induction n as [|a n IH]; intros h; cbn.
  - split; [eauto | reflexivity].
  - destruct h as [|b h]; cbn.
    + split; [discriminate | intros [post Hp]; discriminate].
    + rewrite andb_true_iff, N.eqb_eq, IH. split.
      * intros [-> [post ->]]. eauto.
      * intros [post Hp]. injection Hp as -> ->. eauto.
Qed.

(** [includes] decides whether the needle occurs in the string. *)
Lemma includes_spec n : forall h,
  includes n h = true <-> exists pre post, h = pre ++ n ++ post.
Proof.
  induction h as [|b h IH]; cbn [includes].
  - rewrite starts_with_spec. split.
    + intros [post Hp]. exists [], post. exact Hp.
    + intros (pre & post & Hp). destruct pre; [|discriminate]. eauto.
  - rewrite orb_true_iff, starts_with_spec, IH. split.
    + intros [[post Hp] | (pre & post & Hp)].
      * exists [], post. exact Hp.
      * exists (b :: pre), post. now rewrite Hp.
    + intros (pre & post & Hp). destruct pre as [|b' pre].
      * left. eauto.
      * right. injection Hp as _ ->. eauto.
Qed.

Lemma scan_lines_skip_space s :
  scan_lines true s = scan_lines false (skip_space s).
Proof.
  induction s as [|c r IH]; cbn; [reflexivity|].
  destruct (is_space c) eqn:Hc; cbn; [exact IH | reflexivity].
Qed.

Lemma scan_lines_no_space s :
  starts_with_space s = false -> scan_lines true s = scan_lines false s.
Proof. destruct s as [|c r]; cbn; [reflexivity|]. now intros ->. Qed.

(** The regular expression replacement is the one-pass scan. *)
Lemma replace_nl_space_scan s : replace_nl_space s = scan_lines false s.
Proof.
  funelim (replace_nl_space s).
  - reflexivity.
  - apply andb_true_iff in Heq as [->%N.eqb_eq Hr].
    cbn. f_equal. now rewrite scan_lines_skip_space.
  - cbn. f_equal. destruct (c =? LF) eqn:Hc; cbn in Heq.
    + now rewrite scan_lines_no_space.
    + assumption.
Qed.

Lemma scan_lines_app x : forall (b : bool) y,
  scan_lines b (x ++ y) = scan_lines b x ++ scan_lines (scan_state b x) y.
Proof.
  induction x as [|c x IH]; intros b y; cbn; [reflexivity|].
  destruct (b && is_space c); cbn; now rewrite IH.
Qed.

Lemma scan_state_snoc x c : forall b : bool,
  is_space c = false -> scan_state b (x ++ [c]) = false.
Proof.
  induction x as [|a x IH]; intros b Hc; cbn.
  - rewrite Hc, andb_false_r. apply N.eqb_neq. intros ->. discriminate.
  - destruct (b && is_space a); now apply IH.
Qed.

(** A string in which no line feed is followed by [\s] goes through the
    scan unchanged. *)
Lemma scan_lines_free s :
  nl_space_free s = true -> scan_lines false s = s.
Proof.
  induction s as [|c r IH]; cbn; [reflexivity|].
  rewrite andb_true_iff, negb_true_iff. intros [Hc Hr]. f_equal.
  destruct (c =? LF); cbn in Hc.
  - rewrite scan_lines_no_space by assumption. now apply IH.
  - now apply IH.
Qed.

(** The string [s] occurs in [t]. *)
Local Abbreviation occurs s t := (exists pre post, t = pre ++ s ++ post).

Lemma occurs_scan_skip w z s :
  (forall b : bool, occurs s (scan_lines b z)) ->
  forall b : bool, occurs s (scan_lines b (w ++ z)).
Proof.
  intros Hz b. rewrite scan_lines_app.
  destruct (Hz (scan_state b w)) as (pre & post & ->).
  exists (scan_lines b w ++ pre), post. now rewrite <- app_assoc.
Qed.

Lemma occurs_scan_key k c s y :
  last k = Some c -> is_space c = false -> nl_space_free s = true ->
  forall b : bool, occurs s (scan_lines b (k ++ s ++ y)).
Proof.
  intros [k' ->]%last_Some Hc Hs b.
  rewrite scan_lines_app, scan_state_snoc by assumption.
  rewrite (scan_lines_app s), scan_lines_free by assumption. eauto.
Qed.

Lemma occurs_scan_key_end k c s :
  last k = Some c -> is_space c = false -> nl_space_free s = true ->
  forall b : bool, occurs s (scan_lines b (k ++ s)).
Proof.
  intros Hk Hc Hs b.
  destruct (occurs_scan_key k c s [] Hk Hc Hs b) as (pre & post & H).
  rewrite app_nil_r in H. eauto.
Qed.

(** Without a line feed in [s], the scan of [s] emits [s] and goes on as
    before. *)
Lemma scan_lines_single_line s z :
  single_line_ascii s = true ->
  scan_lines false (s ++ z) = s ++ scan_lines false z.
Proof.
  induction s as [|c r IH]; cbn; [reflexivity|].
  rewrite !andb_true_iff, negb_true_iff. intros [[_ ->] Hr].
  f_equal. now apply IH.
Qed.

(** ASCII code units are encoded as themselves. *)
Lemma Buffer_from_ascii_app s z :
  forallb (fun c => c <? 0x80) s = true ->
  Buffer_from (s ++ z) = s ++ Buffer_from z.
Proof.
  induction s as [|c r IH]; cbn [forallb app]; [reflexivity|].
  rewrite andb_true_iff. intros [Hc Hr].
  cbn [Buffer_from]. rewrite Hc. f_equal. now apply IH.
Qed.

Lemma single_line_ascii_is_ascii s :
  single_line_ascii s = true -> forallb (fun c => c <? 0x80) s = true.
Proof.
  unfold single_line_ascii. rewrite !forallb_forall.
  intros H c Hc. now apply H, andb_true_iff in Hc.
Qed.

Lemma split_cons d sep' c r :
  split (d :: sep') (c :: r) =
    if starts_with (d :: sep') (c :: r)
    then [] :: split (d :: sep') (drop (length sep') r)
    else cons_head c (split (d :: sep') r).
Proof.
  simp split. now destruct (starts_with (d :: sep') (c :: r)).
Qed.

Lemma split_not_nil d sep' s : split (d :: sep') s <> [].
Proof.
  destruct s as [|c r]; [now simp split|].
  rewrite split_cons. destruct (starts_with _ _); [discriminate|].
  now destruct (split (d :: sep') r).
Qed.

Lemma join_cons_head d c (l : list js_string) :
  l <> [] -> join d (cons_head c l) = c :: join d l.
Proof. destruct l as [|p [|q l]]; [congruence | reflexivity | reflexivity]. Qed.

Lemma join_cons_nil d (l : list js_string) :
  l <> [] -> join d ([] :: l) = d ++ join d l.
Proof. destruct l; [congruence | reflexivity]. Qed.

(** With a separator of one code unit, splitting and joining with a slash
    replaces every separator by a slash and leaves the rest as it is. *)
Lemma join_split_char c s :
  join (lit "/") (split [c] s) =
    map (fun u => if u =? c then SLASH else u) s.
Proof.
  induction s as [|a r IH]; [now simp split|].
  rewrite split_cons. cbn [starts_with length map]. rewrite drop_0.
  rewrite andb_true_r, (N.eqb_sym c a).
  destruct (a =? c).
  - rewrite join_cons_nil by apply split_not_nil. now rewrite IH.
  - rewrite join_cons_head by apply split_not_nil. now rewrite IH.
Qed.

End Strings.

(** ** POSIX paths *)

Section Posix.

Implicit Types (s x y : js_string) (l fs ts rs ps : list js_string).

Lemma plain_segment_inv s :
  plain_segment s = true ->
  s <> [] /\ s <> lit "." /\ s <> lit ".." /\ slash_free s = true.
Proof.
  unfold plain_segment, str_eqb.
  rewrite !andb_true_iff, !negb_true_iff, !bool_decide_eq_false.
  intros [[[Hn Hd] Hdd] Hs]. repeat split; try assumption.
  intros ->. discriminate.
Qed.

Lemma split_slash_free s :
  slash_free s = true -> split (lit "/") s = [s].
Proof.
  change (lit "/") with [SLASH]. unfold slash_free.
  induction s as [|a r IH]; [now simp split|].
  cbn [forallb]. rewrite andb_true_iff, negb_true_iff. intros [Ha Hr].
  rewrite split_cons. cbn [starts_with].
  rewrite N.eqb_sym, Ha. cbn. now rewrite IH.
Qed.

Lemma split_slash_app s y :
  slash_free s = true ->
  split (lit "/") (s ++ lit "/" ++ y) = s :: split (lit "/") y.
Proof.
  change (lit "/") with [SLASH]. unfold slash_free.
  induction s as [|a r IH].
  - intros _. cbn [app]. rewrite split_cons. cbn [starts_with length].
    now rewrite N.eqb_refl, drop_0.
  - cbn [forallb]. rewrite andb_true_iff, negb_true_iff. intros [Ha Hr].
    cbn [app] in *. rewrite split_cons. cbn [starts_with].
    rewrite N.eqb_sym, Ha. cbn. now rewrite IH.
Qed.

Lemma split_join l :
  l <> [] -> Forall (fun s => slash_free s = true) l ->
  split (lit "/") (join (lit "/") l) = l.
Proof.
  induction l as [|s [|s' l] IH]; [congruence | |]; intros _ Hl.
  - apply split_slash_free. now inversion Hl.
  - change (join (lit "/") (s :: s' :: l))
      with (s ++ lit "/" ++ join (lit "/") (s' :: l)).
    inversion Hl; subst. rewrite split_slash_app by assumption.
    now rewrite IH.
Qed.

Lemma plain_segments_Forall l :
  forallb plain_segment l = true ->
  Forall (fun s => s <> [] /\ s <> lit "." /\ s <> lit ".."
                   /\ slash_free s = true) l.
Proof.
  rewrite forallb_forall, Forall_forall. intros H s Hs.
  apply plain_segment_inv, H. now apply list_elem_of_In.
Qed.

Lemma filter_nonempty l :
  Forall (fun s => s <> []) l -> List.filter nonempty l = l.
Proof.
  induction 1 as [|s l Hs _ IH]; [reflexivity|].
  cbn. destruct s; [congruence|]. cbn. now rewrite IH.
Qed.

(** The segments of a normalized absolute path are the ones it was made
    of. *)
Lemma segments_absolute l :
  forallb plain_segment l = true -> segments (absolute l) = l.
Proof.
  intros Hl%plain_segments_Forall. unfold segments, absolute.
  change (lit "/" ++ join (lit "/") l)
    with ([] ++ lit "/" ++ join (lit "/") l).
  rewrite (split_slash_app [] _ eq_refl). cbn [List.filter nonempty].
  destruct l as [|s l]; [reflexivity|].
  rewrite split_join; [| discriminate |].
  - apply filter_nonempty. eapply Forall_impl; [exact Hl|]. now intros ? [? _].
  - eapply Forall_impl; [exact Hl|]. now intros ? (_ & _ & _ & ?).
Qed.

Lemma normalize_segments_plain l : forall done,
  forallb plain_segment l = true ->
  normalize_segments done l = rev done ++ l.
Proof.
  induction l as [|s l IH]; intros done Hl; cbn.
  - now rewrite app_nil_r.
  - cbn in Hl. apply andb_true_iff in Hl as [Hs Hl].
    apply plain_segment_inv in Hs as (_ & Hd & Hdd & _).
    unfold str_eqb. rewrite !bool_decide_eq_false_2 by assumption.
    rewrite IH by assumption. cbn. now rewrite <- app_assoc.
Qed.

Lemma resolved_segments_absolute cwd l :
  forallb plain_segment l = true -> resolved_segments cwd (absolute l) = l.
Proof.
  intros Hl. unfold resolved_segments.
  change (starts_with (lit "/") (absolute l)) with true. cbn iota.
  rewrite segments_absolute by assumption.
  now apply normalize_segments_plain.
Qed.

(** A normalized absolute path resolves to itself. *)
Lemma resolve_absolute cwd l :
  forallb plain_segment l = true -> resolve cwd (absolute l) = absolute l.
Proof.
  intros Hl. unfold resolve. now rewrite resolved_segments_absolute.
Qed.

Lemma absolute_inj l l' :
  forallb plain_segment l = true -> forallb plain_segment l' = true ->
  absolute l = absolute l' -> l = l'.
Proof.
  intros Hl Hl' H. apply (f_equal segments) in H.
  now rewrite !segments_absolute in H.
Qed.

Lemma strip_common_refl l : strip_common l l = ([], []).
Proof.
  induction l as [|s l IH]; [reflexivity|].
  cbn. unfold str_eqb. now rewrite bool_decide_eq_true_2.
Qed.

Lemma strip_common_app rs ps : strip_common rs (rs ++ ps) = ([], ps).
Proof.
  induction rs as [|s l IH]; [now destruct ps|].
  cbn. unfold str_eqb. now rewrite bool_decide_eq_true_2.
Qed.

(** [relative] between two normalized absolute paths: one [..] for every
    segment of [from] that [to] does not share, then the segments of [to]
    that [from] does not share. *)
Lemma posix_relative_absolute cwd fs ts :
  forallb plain_segment fs = true -> forallb plain_segment ts = true ->
  posix_relative cwd (absolute fs) (absolute ts) =
    join (lit "/")
      (repeat (lit "..") (length (strip_common fs ts).1)
         ++ (strip_common fs ts).2).
Proof.
  intros Hf Ht. unfold posix_relative.
  rewrite !resolve_absolute, !resolved_segments_absolute by assumption.
  unfold str_eqb. case_bool_decide as Heq.
  - apply absolute_inj in Heq; [|assumption..]. subst ts.
    now rewrite strip_common_refl.
  - now destruct (strip_common fs ts).
Qed.

Lemma join_app d rs ps :
  rs <> [] -> ps <> [] ->
  join d (rs ++ ps) = join d rs ++ d ++ join d ps.
Proof.
  intros Hr Hp. induction rs as [|s [|s' l] IH]; [congruence | |].
  - destruct ps; [congruence | reflexivity].
  - change (join d ((s :: s' :: l) ++ ps))
      with (s ++ d ++ join d ((s' :: l) ++ ps)).
    rewrite IH by discriminate.
    change (join d (s :: s' :: l)) with (s ++ d ++ join d (s' :: l)).
    now rewrite <- !app_assoc.
Qed.

(** Below the root directory, [relative] strips the root and the slash
    after it. *)
Lemma posix_relative_below cwd rs ps :
  rs <> [] -> ps <> [] ->
  forallb plain_segment rs = true -> forallb plain_segment ps = true ->
  posix_relative cwd (absolute rs)
    (absolute rs ++ lit "/" ++ join (lit "/") ps) = join (lit "/") ps.
Proof.
  intros Hr Hp Hrs Hps.
  replace (absolute rs ++ lit "/" ++ join (lit "/") ps)
    with (absolute (rs ++ ps)).
  - rewrite posix_relative_absolute; [| assumption |].
    + now rewrite strip_common_app.
    + rewrite forallb_app. now rewrite Hrs, Hps.
  - unfold absolute. rewrite join_app by assumption.
    now rewrite <- !app_assoc.
Qed.

End Posix.

(** ** The stream built by [pathToRecord] *)

Section Adapter.

Context (P : PathModule) (args : JarArgs) (now : js_string).

(** The record that [transform] makes of a path. *)
Local Abbreviation record_of := (fun p => PathRecord (filename_of P args p) p).

Lemma transform_open (p : js_string) (st : Transform) :
  errored st = None -> readableEnded st = false ->
  transform P args p st =
    (Called None,
     {| readable := readable st ++ [record_of p]; readableEnded := false;
        errored := None |}).
Proof.
  intros He Hd. unfold transform, bind, push, ret. rewrite He.
  cbn iota. now rewrite Hd.
Qed.

Lemma write_all_open (paths : list js_string) : forall st,
  errored st = None -> readableEnded st = false ->
  write_all P args paths st =
    (Called None,
     {| readable := readable st ++ map record_of paths;
        readableEnded := false; errored := None |}).
Proof.
  induction paths as [|p rest IH]; intros st He Hd.
  - cbn. rewrite app_nil_r. destruct st; cbn in *. now subst.
  - cbn [write_all]. unfold write_refused. rewrite Hd, He.
    unfold bind at 1. rewrite transform_open by assumption.
    rewrite IH by reflexivity. cbn. now rewrite <- app_assoc.
Qed.

Lemma final_open (st : Transform) :
  errored st = None -> readableEnded st = false ->
  final args now st =
    (NotCalled,
     {| readable := readable st ++ [manifest; pomProps args now];
        readableEnded := true; errored := None |}).
Proof.
  intros He Hd. unfold final, bind, push, ret. rewrite He. cbn iota.
  rewrite Hd. cbn. now rewrite <- app_assoc.
Qed.

Lemma pathToRecord_run (paths : list js_string) :
  pathToRecord P args now paths =
    {| readable := map record_of paths ++ [manifest; pomProps args now];
       readableEnded := true; errored := None |}.
Proof.
  unfold pathToRecord. rewrite write_all_open by reflexivity.
  now rewrite final_open.
Qed.

(** C2. Whatever paths were written to the stream, once they have all been
    transformed [final] pushes exactly two more records, [manifest] and then
    [pomProps], and then ends the sequence without error: the readable side
    is what the natural paths produced, followed by these two. Nothing can
    be emitted after that: any later push leaves the sequence as it is. *)
Theorem final_appends_manifest_then_pomProps (paths : list js_string) :
  let natural := snd (write_all P args paths init) in
  let t := pathToRecord P args now paths in
  readable t = readable natural ++ [manifest; pomProps args now]
  /\ readableEnded natural = false
  /\ readableEnded t = true
  /\ errored t = None
  /\ forall chunk, readable (snd (push chunk t)) = readable t.
Proof.
  cbn zeta. rewrite pathToRecord_run, write_all_open by reflexivity. cbn.
  repeat split. now intros [c|].
Qed.

(** C7. The stream emits exactly one record per input path, in the order of
    the input: the records before the two synthesized ones are the images of
    the paths, position by position, and the [i]-th of them carries the
    [i]-th input path. *)
Theorem emitted_natural_records_in_input_order (paths : list js_string) :
  emitted P args now paths =
    map record_of paths ++ [manifest; pomProps args now]
  /\ length (emitted P args now paths) = (length paths + 2)%nat
  /\ map chunk_path (take (length paths) (emitted P args now paths)) = paths
  /\ forall i : nat,
       (i < length paths)%nat ->
       emitted P args now paths !! i = record_of <$> paths !! i.
Proof.
  unfold emitted. rewrite pathToRecord_run. cbn [readable].
  split; [reflexivity|]. split.
  { rewrite length_app, length_map. reflexivity. }
  split.
  { rewrite take_app_length' by now rewrite length_map.
    rewrite map_map. cbn. apply map_id. }
  intros i Hi. rewrite lookup_app_l by now rewrite length_map.
  apply list_lookup_fmap.
Qed.

(** The callback of [final] is never called, whatever was written: the
    promise stays pending for every input. *)
Lemma adapter_promise_pending (paths : list js_string) :
  adapter_promise P args now paths = Pending.
Proof.
  unfold adapter_promise. rewrite write_all_open by reflexivity.
  now rewrite final_open.
Qed.

(** C8. With no natural entry at all the stream hands exactly the manifest
    record and the pom.properties record to the encoder and ends the
    sequence without error. The build, however, is never reported as
    succeeded: [final] does not call the callback it is given, so the
    writable side of the stream never finishes and the promise of the
    pipeline, the one [jar] awaits, stays pending. *)
Theorem empty_source_two_records_promise_pending :
  pathToRecord P args now [] =
    {| readable := [manifest; pomProps args now];
       readableEnded := true; errored := None |}
  /\ emitted P args now [] = [manifest; pomProps args now]
  /\ fst (final args now (snd (write_all P args [] init))) = NotCalled
  /\ adapter_promise P args now [] = Pending.
Proof.
  unfold emitted. rewrite pathToRecord_run, adapter_promise_pending.
  repeat split.
Qed.

(** C6. The two synthesized records, the ones emitted after the natural
    ones, carry the archive paths [META-INF/MANIFEST.MF] and
    [META-INF/maven/<groupId>/<artifactId>/pom.properties]. *)
Theorem synthesized_archive_paths (paths : list js_string) :
  map chunk_path (drop (length paths) (emitted P args now paths)) =
    [ lit "META-INF/MANIFEST.MF";
      lit "META-INF/maven/" ++ groupId args ++ lit "/" ++ artifactId args
        ++ lit "/pom.properties" ].
Proof.
  unfold emitted. rewrite pathToRecord_run. cbn [readable].
  rewrite drop_app_length' by now rewrite length_map.
  reflexivity.
Qed.

End Adapter.

Lemma emitted_natural_records_in_input_order_witness :
  let args := {| rootPath := lit "/srv/theme"; targetPath := lit "/tmp/a.jar";
                 groupId := lit "group"; artifactId := lit "artifact";
                 version := lit "1.0.0" |} in
  let now := lit "Sun Nov 01 2026 18:48:00 GMT+0000 (Coordinated Universal Time)" in
  let paths := [lit "/srv/theme/b"; lit "/srv/theme/a"; lit "/srv/theme/c"] in
  emitted (posix (lit "/")) args now paths !! 1%nat =
    Some (PathRecord (filename_of (posix (lit "/")) args (lit "/srv/theme/a"))
                     (lit "/srv/theme/a")).
Proof.
  intros args now paths.
  destruct (emitted_natural_records_in_input_order
              (posix (lit "/")) args now paths) as (_ & _ & _ & H).
  rewrite (H 1%nat); [reflexivity | cbn; lia].
Defined.

(** C3. The two synthesized records are determined by the group, the
    artifact, the version and the timestamp: two calls that agree on these
    four push the same records from [final], whatever their [rootPath] and
    [targetPath] are. *)
Theorem synthesized_from_build_parameters (a b : JarArgs) (now : js_string) :
  groupId a = groupId b ->
  artifactId a = artifactId b ->
  version a = version b ->
  pomProps a now = pomProps b now
  /\ readable (snd (final a now init)) = readable (snd (final b now init)).
Proof.
  intros Hg Ha Hv.
  assert (Hp : pomProps a now = pomProps b now).
  { unfold pomProps, pomProps_text. now rewrite Hg, Ha, Hv. }
  split; [exact Hp|].
  rewrite !final_open by reflexivity. cbn. now rewrite Hp.
Qed.

Lemma synthesized_from_build_parameters_witness :
  let a := {| rootPath := lit "/srv/theme"; targetPath := lit "/tmp/a.jar";
              groupId := lit "g"; artifactId := lit "a";
              version := lit "1.0.0" |} in
  let b := {| rootPath := lit "/home/u/other"; targetPath := lit "b.jar";
              groupId := lit "g"; artifactId := lit "a";
              version := lit "1.0.0" |} in
  let now := lit "Sun Nov 01 2026 18:48:00 GMT+0000 (Coordinated Universal Time)" in
  a <> b /\ pomProps a now = pomProps b now.
Proof.
  cbn zeta. split; [discriminate|].
  eapply synthesized_from_build_parameters; reflexivity.
Defined.

(** ** The archive name of a path *)

(** On POSIX the separator is already the slash: the archive name is what
    [relative] returns. *)
Lemma filename_of_posix (cwd : js_string) (args : JarArgs) (path : js_string) :
  filename_of (posix cwd) args path = posix_relative cwd (rootPath args) path.
Proof.
  unfold filename_of. cbn [sep relative posix].
  change (lit "/") with [SLASH] at 2. rewrite join_split_char.
  rewrite <- (map_id (posix_relative _ _ _)) at 2.
  apply map_ext. intros u. destruct (N.eqb_spec u SLASH); congruence.
Qed.

(** C1, as the code has it. [transform] never fails: it gives no error to
    its callback and pushes [{ filename, path }], where [filename] is
    [relative(rootPath, path)] with every separator of the platform
    replaced by a slash. On POSIX, for normalized absolute paths, this is
    the path without the [rootPath] prefix and the slash after it when the
    path is below [rootPath]; in general it is one [..] for every segment of
    [rootPath] that the path does not share, followed by the rest of the
    path. There is no [PathOutsideRootError]. *)
Theorem transform_filename_relative_never_fails :
  (forall (P : PathModule) (args : JarArgs) (path : js_string) (st : Transform),
      fst (transform P args path st) = Called None
      /\ (errored st = None -> readableEnded st = false ->
          snd (transform P args path st) =
            {| readable := readable st ++ [PathRecord (filename_of P args path) path];
               readableEnded := false; errored := None |}))
  /\ (forall (P : PathModule) (args : JarArgs) (path : js_string) (c : code_unit),
      sep P = [c] ->
      filename_of P args path =
        map (fun u => if u =? c then SLASH else u)
            (relative P (rootPath args) path))
  /\ (forall (cwd : js_string) (args : JarArgs) (rs ps : list js_string),
      rs <> [] -> ps <> [] ->
      forallb plain_segment rs = true -> forallb plain_segment ps = true ->
      rootPath args = absolute rs ->
      filename_of (posix cwd) args
        (rootPath args ++ lit "/" ++ join (lit "/") ps) = join (lit "/") ps)
  /\ (forall (cwd : js_string) (args : JarArgs) (fs ts : list js_string),
      forallb plain_segment fs = true -> forallb plain_segment ts = true ->
      rootPath args = absolute fs ->
      filename_of (posix cwd) args (absolute ts) =
        join (lit "/")
          (repeat (lit "..") (length (strip_common fs ts).1)
             ++ (strip_common fs ts).2)).
Proof.
  split; [|split; [|split]].
  - intros P args path st. split.
    + unfold transform, bind, ret. now destruct (push _ st).
    + intros He Hd. now rewrite transform_open.
  - intros P args path c Hsep. unfold filename_of.
    rewrite Hsep. apply join_split_char.
  - intros cwd args rs ps Hr Hp Hrs Hps Hroot.
    rewrite filename_of_posix, Hroot. now apply posix_relative_below.
  - intros cwd args fs ts Hfs Hts Hroot.
    rewrite filename_of_posix, Hroot. now apply posix_relative_absolute.
Qed.

Lemma transform_filename_relative_never_fails_witness :
  let args := {| rootPath := lit "/srv/theme"; targetPath := lit "/tmp/a.jar";
                 groupId := lit "group"; artifactId := lit "artifact";
                 version := lit "1.0.0" |} in
  filename_of (posix (lit "/")) args (lit "/srv/theme/sub/b.txt")
    = lit "sub/b.txt"
  /\ filename_of (posix (lit "/")) args (lit "/srv/theme/sub/b.txt")
      = map (fun u => if u =? SLASH then SLASH else u)
            (posix_relative (lit "/") (lit "/srv/theme")
               (lit "/srv/theme/sub/b.txt"))
  /\ filename_of (posix (lit "/")) args (lit "/etc/passwd")
      = lit "../../etc/passwd".
Proof.
  intros args.
  destruct transform_filename_relative_never_fails as (_ & Hsep & Hbelow & Hrel).
  split; [|split].
  - exact (Hbelow (lit "/") args [lit "srv"; lit "theme"]
             [lit "sub"; lit "b.txt"]
             ltac:(discriminate) ltac:(discriminate)
             eq_refl eq_refl eq_refl).
  - exact (Hsep (posix (lit "/")) args (lit "/srv/theme/sub/b.txt") SLASH
             eq_refl).
  - exact (Hrel (lit "/") args [lit "srv"; lit "theme"]
             [lit "etc"; lit "passwd"] eq_refl eq_refl eq_refl).
Defined.

(** C1 as stated fails: a path that is not under [rootPath] is given an
    archive name that climbs out of the root, and no error is raised. *)
Lemma transform_outside_root_no_error :
  let args := {| rootPath := lit "/srv/theme"; targetPath := lit "/tmp/a.jar";
                 groupId := lit "group"; artifactId := lit "artifact";
                 version := lit "1.0.0" |} in
  let result := transform (posix (lit "/")) args (lit "/etc/passwd") init in
  starts_with (rootPath args) (lit "/etc/passwd") = false
  /\ result =
       (Called None,
        {| readable := [PathRecord (lit "../../etc/passwd") (lit "/etc/passwd")];
           readableEnded := false; errored := None |})
  /\ fst result <> Called (Some (JsError (lit "PathOutsideRootError"))).
Proof. vm_compute. repeat split. discriminate. Qed.

(** ** The text of pom.properties *)

(** Finds the place of an interpolated string in a template: the pieces in
    front of its key are skipped one by one. *)
Ltac find_occurrence :=
  first
    [ eapply occurs_scan_key; [reflexivity | reflexivity | assumption]
    | eapply occurs_scan_key_end; [reflexivity | reflexivity | assumption]
    | eapply occurs_scan_skip; intros ?; find_occurrence ].

(** C5, as the code has it. [trimIndent] runs on the text after the
    parameters have been put into it, so a parameter appears in the text of
    pom.properties character for character when none of its line feeds is
    directly followed by whitespace; this holds for each of [groupId],
    [artifactId] and [version] on its own, whatever the others are. *)
Theorem pomProps_text_includes_parameter
    (args : JarArgs) (now s : js_string) :
  In s [groupId args; artifactId args; version args] ->
  nl_space_free s = true ->
  chunk_data (pomProps args now) =
    Some (Buffer_from (trimIndent (pomProps_text args now)))
  /\ includes s (trimIndent (pomProps_text args now)) = true.
Proof.
  intros Hin Hs. split; [reflexivity|].
  apply includes_spec. unfold trimIndent. rewrite replace_nl_space_scan.
  unfold pomProps_text.
  destruct Hin as [<- | [<- | [<- | []]]]; find_occurrence.
Qed.

Lemma pomProps_text_includes_parameter_witness :
  let args := {| rootPath := lit "/srv/theme"; targetPath := lit "/tmp/a.jar";
                 groupId := lit "org.keycloak  theme";
                 artifactId := lit " my-theme "; version := lit "1.0.0" |} in
  let now := lit "Sun Nov 01 2026 18:48:00 GMT+0000 (Coordinated Universal Time)" in
  includes (groupId args) (trimIndent (pomProps_text args now)) = true
  /\ includes (artifactId args) (trimIndent (pomProps_text args now)) = true
  /\ includes (version args) (trimIndent (pomProps_text args now)) = true.
Proof.
  intros args now. split; [|split].
  - apply (pomProps_text_includes_parameter args now (groupId args));
      [cbn; tauto | reflexivity].
  - apply (pomProps_text_includes_parameter args now (artifactId args));
      [cbn; tauto | reflexivity].
  - apply (pomProps_text_includes_parameter args now (version args));
      [cbn; tauto | reflexivity].
Defined.

(** C5 as stated fails: a group id with an indented second line is not in
    the text, which holds the line without its indentation. *)
Lemma pomProps_text_drops_indentation :
  let args := {| rootPath := lit "/srv/theme"; targetPath := lit "/tmp/a.jar";
                 groupId := [103; LF; SPACE; 104];
                 artifactId := lit "a"; version := lit "1.0.0" |} in
  let now := lit "Sun Nov 01 2026 18:48:00 GMT+0000 (Coordinated Universal Time)" in
  includes (groupId args) (trimIndent (pomProps_text args now)) = false
  /\ includes [103; LF; 104] (trimIndent (pomProps_text args now)) = true.
Proof. vm_compute. split; reflexivity. Qed.

(** The text of pom.properties is a fixed header, the date as [new Date()]
    prints it, and a rest that does not depend on the date. *)
Lemma pomProps_text_date (args : JarArgs) (now : js_string) :
  single_line_ascii now = true ->
  trimIndent (pomProps_text args now) =
    (lit "# Generated by keycloakify" ++ [LF] ++ lit "# ") ++ now ++
    scan_lines false
      (nl ++ lit "artifactId=" ++ artifactId args ++ nl ++
       lit "groupId=" ++ groupId args ++ nl ++
       lit "version=" ++ version args).
Proof.
  intros Hnow. unfold trimIndent, pomProps_text.
  rewrite replace_nl_space_scan.
  assert (E : forall a b c d : js_string,
             a ++ b ++ c ++ d = (a ++ b ++ c) ++ d).
  { intros. now rewrite <- !app_assoc. }
  rewrite E, scan_lines_app.
  change (scan_state false _) with false.
  rewrite (scan_lines_single_line now) by assumption.
  reflexivity.
Qed.

(** C10. The build is not a function of its arguments alone: the date that
    [new Date()] gives when [jar] is called ends up in the bytes of
    pom.properties, so that two calls with the same arguments made at
    moments that print differently produce different contents. *)
Theorem pomProps_data_depends_on_date
    (args : JarArgs) (now1 now2 : js_string) :
  single_line_ascii now1 = true ->
  single_line_ascii now2 = true ->
  now1 <> now2 ->
  chunk_data (pomProps args now1) <> chunk_data (pomProps args now2).
Proof.
  intros H1 H2 Hne Heq. apply Hne.
  unfold pomProps in Heq. cbn [chunk_data] in Heq.
  apply (inj Some) in Heq.
  rewrite !pomProps_text_date in Heq by assumption.
  rewrite <- !app_assoc in Heq.
  rewrite 2(Buffer_from_ascii_app (lit _)) in Heq by reflexivity.
  rewrite 2(Buffer_from_ascii_app [LF]) in Heq by reflexivity.
  rewrite 2(Buffer_from_ascii_app (lit _)) in Heq by reflexivity.
  rewrite (Buffer_from_ascii_app now1) in Heq
    by now apply single_line_ascii_is_ascii.
  rewrite (Buffer_from_ascii_app now2) in Heq
    by now apply single_line_ascii_is_ascii.
  repeat apply app_inv_head in Heq.
  now apply app_inv_tail in Heq.
Qed.

Lemma pomProps_data_depends_on_date_witness :
  let args := {| rootPath := lit "/srv/theme"; targetPath := lit "/tmp/a.jar";
                 groupId := lit "group"; artifactId := lit "artifact";
                 version := lit "1.0.0" |} in
  chunk_data (pomProps args
    (lit "Sun Nov 01 2026 18:48:00 GMT+0000 (Coordinated Universal Time)")) <>
  chunk_data (pomProps args
    (lit "Sun Nov 01 2026 18:48:01 GMT+0000 (Coordinated Universal Time)")).
Proof.
  intros args.
  apply pomProps_data_depends_on_date; [reflexivity | reflexivity | discriminate].
Defined.

(** ** Standalone usage *)

(** C9. Run standalone, the tool takes the source directory from the first
    argument after the script and the output file from the second, and each
    of the artifact id, the group id and the version defaults to
    ["artifact"], ["group"] and ["1.0.0"] when its environment variable is
    not set. *)
Theorem main_args_positional_and_defaults (p : Process) :
  (forall node script src out rest,
      argv p = node :: script :: src :: out :: rest ->
      main_rootPath (main_args p) = Some src
      /\ main_targetPath (main_args p) = Some out)
  /\ (env p !! lit "ARTIFACT_ID" = None ->
      main_artifactId (main_args p) = lit "artifact")
  /\ (env p !! lit "GROUP_ID" = None ->
      main_groupId (main_args p) = lit "group")
  /\ (env p !! lit "VERSION" = None ->
      main_version (main_args p) = lit "1.0.0").
Proof.
  unfold main_args, nullish; cbn.
  split; [|split; [|split]].
  - intros node script src out rest ->. now split.
  - now intros ->.
  - now intros ->.
  - now intros ->.
Qed.

Lemma main_args_positional_and_defaults_witness :
  let p := {| argv := [lit "/usr/bin/ts-node"; lit "jar.ts";
                       lit "dirWithSources"; lit "some-jar.jar"];
              env := ∅; stderr := []; exitCode := None |} in
  main_args p =
    {| main_rootPath := Some (lit "dirWithSources");
       main_targetPath := Some (lit "some-jar.jar");
       main_artifactId := lit "artifact";
       main_groupId := lit "group";
       main_version := lit "1.0.0" |}.
Proof.
  intros p.
  destruct (main_args_positional_and_defaults p) as (Hpos & Ha & Hg & Hv).
  destruct (Hpos _ _ _ _ _ eq_refl) as [Hr Ht].
  specialize (Ha eq_refl). specialize (Hg eq_refl). specialize (Hv eq_refl).
  destruct (main_args p); cbn in *. now subst.
Defined.

(** An environment variable that is set, even to the empty string, is used
    as it is. *)
Lemma main_args_env_set (p : Process) (v : js_string) :
  env p !! lit "VERSION" = Some v -> main_version (main_args p) = v.
Proof. unfold main_args, nullish; cbn. now intros ->. Qed.

(** C4, as the code has it. When the build fails, the rejection is handled
    by the callback of [catch], which reports the error with
    [console.error]; nothing sets the exit code, so a process that started
    without one still exits with status 0. *)
Theorem standalone_failure_reported_exit_code_unchanged
    (jar_run : MainArgs -> Outcome) (p : Process) (e : js_error) :
  jar_run (main_args p) = Rejected e ->
  stderr (standalone jar_run p) = stderr p ++ [e]
  /\ exitCode (standalone jar_run p) = exitCode p
  /\ (exitCode p = None -> exit_status (standalone jar_run p) = 0).
Proof.
  intros Hrun. unfold standalone, exit_status. rewrite Hrun. cbn.
  repeat split. now intros ->.
Qed.

Lemma standalone_failure_reported_exit_code_unchanged_witness :
  let e := JsError (lit "ENOENT") in
  let p := {| argv := [lit "/usr/bin/ts-node"; lit "jar.ts";
                       lit "missing-dir"; lit "some-jar.jar"];
              env := ∅; stderr := []; exitCode := None |} in
  stderr (standalone (fun _ => Rejected e) p) = [e]
  /\ exitCode (standalone (fun _ => Rejected e) p) = None.
Proof.
  intros e p.
  destruct (standalone_failure_reported_exit_code_unchanged
              (fun _ => Rejected e) p e eq_refl) as (Hs & Hc & _).
  split; [exact Hs | exact Hc].
Defined.

(** C4 as stated fails: a build that fails on a fresh process leaves the
    exit status at 0. *)
Lemma standalone_failure_exit_status_zero :
  let e := JsError (lit "ENOENT") in
  let p := {| argv := [lit "/usr/bin/ts-node"; lit "jar.ts";
                       lit "missing-dir"; lit "some-jar.jar"];
              env := ∅; stderr := []; exitCode := None |} in
  ~ (exit_status (standalone (fun _ => Rejected e) p) <> 0).
Proof. intros e p H. now apply H. Qed.

(** ** [trimIndent] *)

Section TrimIndent.

Implicit Types (s x y z ws : js_string) (c : code_unit) (b : bool).

Lemma scan_lines_true_no_space s : starts_with_space (scan_lines true s) = false.
Proof.
  induction s as [|c r IH]; cbn; [reflexivity|].
  destruct (is_space c) eqn:Hc; [exact IH | exact Hc].
Qed.

Lemma scan_lines_nl_space_free s : forall b,
  nl_space_free (scan_lines b s) = true.
Proof.
  induction s as [|c r IH]; intros b; cbn; [reflexivity|].
  destruct (b && is_space c); [apply IH|].
  cbn. rewrite IH, andb_true_r.
  destruct (c =? LF); [|reflexivity].
  now rewrite scan_lines_true_no_space.
Qed.

Lemma scan_lines_non_space s : forall b,
  non_space (scan_lines b s) = non_space s.
Proof.
  unfold non_space.
  induction s as [|c r IH]; intros b; cbn; [reflexivity|].
  destruct b, (is_space c) eqn:Hc; cbn; rewrite ?Hc; cbn; now rewrite IH.
Qed.

Lemma scan_lines_length s : forall b,
  (length (scan_lines b s) <= length s)%nat.
Proof.
  induction s as [|c r IH]; intros b; cbn; [lia|].
  destruct (b && is_space c); cbn.
  - specialize (IH true). lia.
  - specialize (IH (c =? LF)). lia.
Qed.

Lemma scan_lines_all_space ws z :
  all_space ws = true -> scan_lines true (ws ++ z) = scan_lines true z.
Proof.
  unfold all_space.
  induction ws as [|c r IH]; cbn; [reflexivity|].
  rewrite andb_true_iff. intros [-> Hr]. now apply IH.
Qed.

Lemma scan_lines_lf_free s z :
  lf_free s = true -> scan_lines false (s ++ z) = s ++ scan_lines false z.
Proof.
  unfold lf_free.
  induction s as [|c r IH]; cbn; [reflexivity|].
  rewrite andb_true_iff, negb_true_iff. intros [-> Hr].
  f_equal. now apply IH.
Qed.

Lemma nl_space_free_tail c s :
  nl_space_free (c :: s) = true -> nl_space_free s = true.
Proof. cbn. rewrite andb_true_iff. tauto. Qed.

(** X1. In the result of [trimIndent] no line feed is followed by
    whitespace: every line after the first starts with a code unit that is
    not whitespace, and there is no empty line between two lines. *)
Theorem trimIndent_no_indentation_left s :
  nl_space_free (trimIndent s) = true.
Proof.
  unfold trimIndent. rewrite replace_nl_space_scan.
  apply scan_lines_nl_space_free.
Qed.

(** X2. Trimming twice is trimming once. *)
Theorem trimIndent_idempotent s :
  trimIndent (trimIndent s) = trimIndent s.
Proof.
  unfold trimIndent. rewrite !replace_nl_space_scan.
  apply scan_lines_free, scan_lines_nl_space_free.
Qed.

(** X3. [trimIndent] leaves a string as it is exactly when none of its
    line feeds is followed by whitespace. *)
Theorem trimIndent_fixed_point s :
  trimIndent s = s <-> nl_space_free s = true.
Proof.
  unfold trimIndent. rewrite replace_nl_space_scan. split.
  - intros <-. apply scan_lines_nl_space_free.
  - apply scan_lines_free.
Qed.

Lemma scan_lines_sublist s : forall b, sublist (scan_lines b s) s.
Proof.
  induction s as [|c r IH]; intros b; cbn; [constructor|].
  destruct (b && is_space c).
  - apply sublist_cons, IH.
  - apply sublist_skip, IH.
Qed.

(** X4. [trimIndent] only ever deletes whitespace: the result is the
    subject with some of its code units left out, the code units that are
    not whitespace are all kept, in their order, and the result is never
    longer than the subject. *)
Theorem trimIndent_deletes_only_whitespace s :
  sublist (trimIndent s) s
  /\ non_space (trimIndent s) = non_space s
  /\ (length (trimIndent s) <= length s)%nat.
Proof.
  unfold trimIndent. rewrite replace_nl_space_scan. split; [|split].
  - apply scan_lines_sublist.
  - apply scan_lines_non_space.
  - apply scan_lines_length.
Qed.

(** X5. The first line is not trimmed: up to the first line feed the
    subject comes out as it is, leading whitespace included, and the rest
    is trimmed on its own. *)
Theorem trimIndent_first_line_kept s z :
  lf_free s = true -> trimIndent (s ++ z) = s ++ trimIndent z.
Proof.
  intros Hs. unfold trimIndent. rewrite !replace_nl_space_scan.
  now apply scan_lines_lf_free.
Qed.

Lemma trimIndent_first_line_kept_witness :
  trimIndent (lit "  a  " ++ [LF] ++ lit "  b") =
    lit "  a  " ++ trimIndent ([LF] ++ lit "  b").
Proof. apply trimIndent_first_line_kept. reflexivity. Defined.

(** X6. Whitespace after a line feed does not count: deleting a run of
    whitespace that follows a line feed (an indentation, or blank lines)
    from the subject does not change the result. *)
Theorem trimIndent_ignores_space_after_lf x ws y :
  all_space ws = true ->
  trimIndent (x ++ LF :: ws ++ y) = trimIndent (x ++ LF :: y).
Proof.
  intros Hws. unfold trimIndent. rewrite !replace_nl_space_scan.
  rewrite !scan_lines_app. f_equal.
  cbn. destruct (scan_state false x); cbn.
  - now rewrite scan_lines_all_space.
  - now rewrite scan_lines_all_space.
Qed.

Lemma trimIndent_ignores_space_after_lf_witness :
  trimIndent (lit "a" ++ LF :: [LF; SPACE; 9; LF; SPACE] ++ lit "b") =
    trimIndent (lit "a" ++ LF :: lit "b").
Proof. apply trimIndent_ignores_space_after_lf. reflexivity. Defined.

End TrimIndent.

(** ** The contents of pom.properties *)

Section PomProps.

Implicit Types (s x y z k : js_string) (c : code_unit) (b : bool).

Lemma ends_with_lf_cons c d s :
  ends_with_lf (c :: d :: s) = ends_with_lf (d :: s).
Proof. reflexivity. Qed.

Lemma scan_state_free s :
  nl_space_free s = true -> scan_state false s = ends_with_lf s.
Proof.
  induction s as [|c r IH]; [reflexivity|].
  intros H. pose proof (nl_space_free_tail _ _ H) as Hr.
  cbn in H. apply andb_true_iff in H as [Hc _].
  apply negb_true_iff in Hc.
  cbn [scan_state andb].
  destruct r as [|d r'].
  - reflexivity.
  - rewrite ends_with_lf_cons, <- IH by assumption.
    destruct (c =? LF); [|reflexivity].
    cbn in Hc. cbn [scan_state]. now rewrite Hc.
Qed.

(** A piece of text that trimming leaves alone, followed by the line break
    of the template. *)
Lemma scan_lines_piece s z :
  nl_space_free s = true -> ends_with_lf s = false ->
  scan_lines false (s ++ nl ++ z) = s ++ LF :: scan_lines true z.
Proof.
  intros Hs He. rewrite scan_lines_app, scan_lines_free by assumption.
  rewrite scan_state_free, He by assumption.
  reflexivity.
Qed.

(** A key of the template at the start of a line. *)
Lemma scan_lines_key k z :
  lf_free k = true -> starts_with_space (k ++ z) = false ->
  scan_lines true (k ++ z) = k ++ scan_lines false z.
Proof.
  intros Hk Hz. rewrite scan_lines_no_space by assumption.
  now apply scan_lines_lf_free.
Qed.

Lemma single_line_ascii_shape s :
  single_line_ascii s = true ->
  nl_space_free s = true /\ ends_with_lf s = false
  /\ forallb (fun c => c <? 0x80) s = true.
Proof.
  intros H. split; [|split].
  - induction s as [|c r IH]; [reflexivity|].
    cbn in H. apply andb_true_iff in H as [Hc Hr].
    apply andb_true_iff in Hc as [_ Hc]. apply negb_true_iff in Hc.
    cbn. rewrite Hc. cbn. now apply IH.
  - unfold ends_with_lf. destruct (last s) as [c|] eqn:Hl; [|reflexivity].
    apply last_Some in Hl as [s' ->].
    unfold single_line_ascii in H. rewrite forallb_app in H.
    apply andb_true_iff in H as [_ H]. cbn in H.
    rewrite andb_true_r in H. apply andb_true_iff in H as [_ H].
    now apply negb_true_iff in H.
  - now apply single_line_ascii_is_ascii.
Qed.

Lemma pomProps_text_plain (args : JarArgs) (now : js_string) :
  nl_space_free now = true -> ends_with_lf now = false ->
  nl_space_free (artifactId args) = true ->
  ends_with_lf (artifactId args) = false ->
  nl_space_free (groupId args) = true ->
  ends_with_lf (groupId args) = false ->
  nl_space_free (version args) = true ->
  trimIndent (pomProps_text args now) =
    lit "# Generated by keycloakify" ++ [LF] ++
    lit "# " ++ now ++ [LF] ++
    lit "artifactId=" ++ artifactId args ++ [LF] ++
    lit "groupId=" ++ groupId args ++ [LF] ++
    lit "version=" ++ version args.
Proof.
  intros Hn Hn' Ha Ha' Hg Hg' Hv.
  unfold trimIndent, pomProps_text. rewrite replace_nl_space_scan.
  rewrite (scan_lines_piece (lit _)) by reflexivity.
  rewrite (scan_lines_key (lit "# ")) by reflexivity.
  rewrite (scan_lines_piece now) by assumption.
  rewrite (scan_lines_key (lit "artifactId=")) by reflexivity.
  rewrite (scan_lines_piece (artifactId args)) by assumption.
  rewrite (scan_lines_key (lit "groupId=")) by reflexivity.
  rewrite (scan_lines_piece (groupId args)) by assumption.
  rewrite (scan_lines_key (lit "version=")) by reflexivity.
  rewrite (scan_lines_free (version args)) by assumption.
  reflexivity.
Qed.

Lemma Buffer_from_ascii s :
  forallb (fun c => c <? 0x80) s = true -> Buffer_from s = s.
Proof.
  intros H. rewrite <- (app_nil_r s) at 1.
  rewrite Buffer_from_ascii_app by assumption. apply app_nil_r.
Qed.

(** X7. When trimming has nothing to remove from the date, the artifact id
    and the group id (no line feed followed by whitespace, none at the end)
    nor from the version, the text of pom.properties is exactly five lines:
    the comment, the date, and the three properties, without
    indentation. *)
Theorem pomProps_text_five_lines (args : JarArgs) (now : js_string) :
  nl_space_free now = true -> ends_with_lf now = false ->
  nl_space_free (artifactId args) = true ->
  ends_with_lf (artifactId args) = false ->
  nl_space_free (groupId args) = true ->
  ends_with_lf (groupId args) = false ->
  nl_space_free (version args) = true ->
  trimIndent (pomProps_text args now) =
    lit "# Generated by keycloakify" ++ [LF] ++
    lit "# " ++ now ++ [LF] ++
    lit "artifactId=" ++ artifactId args ++ [LF] ++
    lit "groupId=" ++ groupId args ++ [LF] ++
    lit "version=" ++ version args.
Proof. apply pomProps_text_plain. Qed.

(** X8. For a date, an artifact id, a group id and a version that are
    single lines of ASCII, the data of the pom.properties record is, byte
    for byte, the five lines of the text. *)
Theorem pomProps_data_ascii (args : JarArgs) (now : js_string) :
  single_line_ascii now = true ->
  single_line_ascii (artifactId args) = true ->
  single_line_ascii (groupId args) = true ->
  single_line_ascii (version args) = true ->
  chunk_data (pomProps args now) =
    Some (lit "# Generated by keycloakify" ++ [LF] ++
          lit "# " ++ now ++ [LF] ++
          lit "artifactId=" ++ artifactId args ++ [LF] ++
          lit "groupId=" ++ groupId args ++ [LF] ++
          lit "version=" ++ version args).
Proof.
  intros (Hn & Hn' & Hn'')%single_line_ascii_shape
         (Ha & Ha' & Ha'')%single_line_ascii_shape
         (Hg & Hg' & Hg'')%single_line_ascii_shape
         (Hv & Hv' & Hv'')%single_line_ascii_shape.
  unfold pomProps. cbn [chunk_data]. f_equal.
  rewrite pomProps_text_plain by assumption.
  apply Buffer_from_ascii.
  rewrite !forallb_app, Hn'', Ha'', Hg'', Hv''. reflexivity.
Qed.

(** X9. Whatever the parameters are, the text of pom.properties starts with
    the comment line and the marker of the date comment. *)
Theorem pomProps_text_header (args : JarArgs) (now : js_string) :
  starts_with (lit "# Generated by keycloakify" ++ [LF] ++ lit "# ")
    (trimIndent (pomProps_text args now)) = true.
Proof.
  unfold trimIndent, pomProps_text. rewrite replace_nl_space_scan.
  rewrite (scan_lines_piece (lit _)) by reflexivity.
  rewrite (scan_lines_key (lit "# ")) by reflexivity.
  apply starts_with_spec. eexists. rewrite <- !app_assoc. reflexivity.
Qed.

(** X10. The archive path of pom.properties tells the group and the
    artifact apart as long as group ids have no slash: two builds with the
    same path have the same group id and the same artifact id. *)
Theorem pomProps_path_injective (a b : JarArgs) (now now' : js_string) :
  slash_free (groupId a) = true -> slash_free (groupId b) = true ->
  chunk_path (pomProps a now) = chunk_path (pomProps b now') ->
  groupId a = groupId b /\ artifactId a = artifactId b.
Proof.
  intros Ha Hb H. unfold pomProps in H. cbn [chunk_path] in H.
  apply app_inv_head in H.
  pose proof (f_equal (split (lit "/")) H) as Hs.
  rewrite 2split_slash_app in Hs by assumption.
  apply (f_equal (fun l => hd [] l)) in Hs as Hg. cbn [hd] in Hg.
  split; [exact Hg|].
  rewrite Hg in H. apply app_inv_head in H.
  apply app_inv_head in H. now apply app_inv_tail in H.
Qed.

End PomProps.

Lemma pomProps_text_five_lines_witness :
  let args := {| rootPath := lit "/srv/theme"; targetPath := lit "/tmp/a.jar";
                 groupId := lit " org. keycloak ";
                 artifactId := [LF] ++ lit "my-theme";
                 version := lit "1.0.0" ++ [LF] |} in
  let now := lit "Sun Nov 01 2026 18:48:00 GMT+0000 (Coordinated Universal Time)" in
  trimIndent (pomProps_text args now) =
    lit "# Generated by keycloakify" ++ [LF] ++
    lit "# " ++ now ++ [LF] ++
    lit "artifactId=" ++ artifactId args ++ [LF] ++
    lit "groupId=" ++ groupId args ++ [LF] ++
    lit "version=" ++ version args.
Proof.
  intros args now. apply pomProps_text_five_lines; reflexivity.
Defined.

Lemma pomProps_data_ascii_witness :
  let args := {| rootPath := lit "/srv/theme"; targetPath := lit "/tmp/a.jar";
                 groupId := lit "g"; artifactId := lit "a";
                 version := lit "1.0.0" |} in
  chunk_data (pomProps args (lit "Sun Nov 01 2026")) =
    Some (lit "# Generated by keycloakify" ++ [LF] ++
          lit "# Sun Nov 01 2026" ++ [LF] ++
          lit "artifactId=a" ++ [LF] ++
          lit "groupId=g" ++ [LF] ++
          lit "version=1.0.0").
Proof.
  intros args. exact (pomProps_data_ascii args (lit "Sun Nov 01 2026")
                        eq_refl eq_refl eq_refl eq_refl).
Defined.

Lemma pomProps_path_injective_witness :
  let a := {| rootPath := lit "/srv/theme"; targetPath := lit "/tmp/a.jar";
              groupId := lit "org.keycloak"; artifactId := lit "x/y";
              version := lit "1.0.0" |} in
  let b := {| rootPath := lit "/other"; targetPath := lit "b.jar";
              groupId := lit "org.keycloak"; artifactId := lit "x/y";
              version := lit "2.0.0" |} in
  groupId a = groupId b /\ artifactId a = artifactId b.
Proof.
  intros a b.
  apply (pomProps_path_injective a b (lit "Sun") (lit "Mon"));
    vm_compute; reflexivity.
Defined.

(** With a slash in the group id the path no longer tells them apart. *)
Example pomProps_path_collision :
  let a := {| rootPath := []; targetPath := []; groupId := lit "x/y";
              artifactId := lit "z"; version := [] |} in
  let b := {| rootPath := []; targetPath := []; groupId := lit "x";
              artifactId := lit "y/z"; version := [] |} in
  chunk_path (pomProps a []) = chunk_path (pomProps b []).
Proof. vm_compute. reflexivity. Qed.

(** ** More on archive names *)

Section ArchiveNames.

Implicit Types (s x y : js_string) (l fs ts rs ps : list js_string).

(** X11. When the separator of the platform is one code unit other than
    the slash (the backslash of Windows), the archive name has as many code
    units as what [relative] returned and none of them is the separator. *)
Theorem filename_of_no_separator
    (P : PathModule) (args : JarArgs) (path : js_string) (c : code_unit) :
  sep P = [c] -> c <> SLASH ->
  length (filename_of P args path)
    = length (relative P (rootPath args) path)
  /\ ~ In c (filename_of P args path).
Proof.
  intros Hsep Hc. unfold filename_of. rewrite Hsep, join_split_char.
  split; [apply length_map|].
  rewrite in_map_iff. intros (u & Hu & _).
  destruct (N.eqb_spec u c); congruence.
Qed.

(** X12. A path that resolves to the root directory itself gets the empty
    archive name. *)
Theorem filename_of_root_is_empty
    (cwd : js_string) (args : JarArgs) (path : js_string) :
  resolve cwd path = resolve cwd (rootPath args) ->
  filename_of (posix cwd) args path = [].
Proof.
  intros H. rewrite filename_of_posix. unfold posix_relative.
  destruct (str_eqb (rootPath args) path); [reflexivity|].
  unfold str_eqb. now rewrite bool_decide_eq_true_2.
Qed.

Lemma strip_common_spec fs : forall ts,
  exists cs, fs = cs ++ (strip_common fs ts).1
             /\ ts = cs ++ (strip_common fs ts).2.
Proof.
  induction fs as [|f fs IH]; intros ts; [now exists []|].
  destruct ts as [|t ts]; [now exists []|].
  cbn. unfold str_eqb. case_bool_decide as Heq; [|now exists []].
  subst t. destruct (IH ts) as (cs & H1 & H2).
  exists (f :: cs). cbn. now rewrite <- H1, <- H2.
Qed.

Lemma join_nil_inv d s l : join d (s :: l) = [] -> s = [].
Proof.
  destruct l; cbn; [easy|]. intros H. now apply app_eq_nil in H.
Qed.

(** Joining with slashes loses nothing when the segments are not empty and
    have no slash. *)
Lemma join_slash_inj l l' :
  Forall (fun s => s <> [] /\ slash_free s = true) l ->
  Forall (fun s => s <> [] /\ slash_free s = true) l' ->
  join (lit "/") l = join (lit "/") l' -> l = l'.
Proof.
  intros Hl Hl' H.
  destruct l as [|s l], l' as [|s' l']; [reflexivity | | |].
  - symmetry in H. apply join_nil_inv in H. inversion Hl'; subst. tauto.
  - apply join_nil_inv in H. inversion Hl; subst. tauto.
  - apply (f_equal (split (lit "/"))) in H.
    rewrite !split_join in H; try discriminate; try assumption.
    + eapply Forall_impl; [exact Hl'|]. now intros ? [_ ?].
    + eapply Forall_impl; [exact Hl|]. now intros ? [_ ?].
Qed.

Lemma plain_segment_part s :
  plain_segment s = true -> s <> [] /\ slash_free s = true.
Proof. intros H%plain_segment_inv. tauto. Qed.

(** The segments of a relative path: some [..] and then plain segments. *)
Lemma climb_segments_ok (k : nat) l :
  forallb plain_segment l = true ->
  Forall (fun s => s <> [] /\ slash_free s = true)
         (repeat (lit "..") k ++ l).
Proof.
  intros Hl. apply Forall_app. split.
  - apply Forall_forall. intros s Hs%list_elem_of_In%repeat_spec.
    subst s. now split.
  - apply plain_segments_Forall in Hl.
    eapply Forall_impl; [exact Hl|]. intros ? (? & _ & _ & ?). now split.
Qed.

Lemma climb_segments_inj (k k' : nat) l l' :
  forallb plain_segment l = true -> forallb plain_segment l' = true ->
  repeat (lit "..") k ++ l = repeat (lit "..") k' ++ l' ->
  k = k' /\ l = l'.
Proof.
  intros Hl Hl'. revert k'.
  induction k as [|k IH]; intros [|k']; cbn; intros H.
  - now split.
  - subst l. cbn [app repeat forallb] in Hl.
    apply andb_true_iff in Hl as [Hl _]. vm_compute in Hl. discriminate.
  - subst l'. cbn [app repeat forallb] in Hl'.
    apply andb_true_iff in Hl' as [Hl' _]. vm_compute in Hl'. discriminate.
  - injection H as H. destruct (IH _ H) as [-> ->]. now split.
Qed.

Lemma strip_common_plain fs ts :
  forallb plain_segment ts = true ->
  forallb plain_segment (strip_common fs ts).2 = true.
Proof.
  intros Hts. destruct (strip_common_spec fs ts) as (cs & _ & H2).
  rewrite H2, forallb_app in Hts. now apply andb_true_iff in Hts.
Qed.

(** X13. Two different files never get the same archive name: on POSIX,
    for a normalized root and normalized absolute paths, below the root or
    not, different paths have different archive names. *)
Theorem filename_of_injective
    (cwd : js_string) (args : JarArgs) (fs ts ts' : list js_string) :
  forallb plain_segment fs = true ->
  forallb plain_segment ts = true ->
  forallb plain_segment ts' = true ->
  rootPath args = absolute fs ->
  ts <> ts' ->
  filename_of (posix cwd) args (absolute ts)
    <> filename_of (posix cwd) args (absolute ts').
Proof.
  intros Hfs Hts Hts' Hroot Hne H. apply Hne.
  rewrite !filename_of_posix, Hroot in H.
  rewrite !posix_relative_absolute in H by assumption.
  apply join_slash_inj in H;
    [| now apply climb_segments_ok, strip_common_plain..].
  apply climb_segments_inj in H as [Hk Hr];
    [| now apply strip_common_plain..].
  destruct (strip_common_spec fs ts) as (cs & H1 & H2).
  destruct (strip_common_spec fs ts') as (cs' & H1' & H2').
  assert (cs = cs') as <-.
  { rewrite H1' in H1 at 1. symmetry in H1.
    now apply app_inj_2 in H1 as [? _]. }
  now rewrite H2, H2', Hr.
Qed.

(** X14. The archive name has a [..] segment exactly when the path is not
    below the root (POSIX, normalized absolute paths): the names of the
    files of the tree never climb, all the others do. *)
Theorem filename_of_climbs_iff_outside
    (cwd : js_string) (args : JarArgs) (fs ts : list js_string) :
  forallb plain_segment fs = true ->
  forallb plain_segment ts = true ->
  rootPath args = absolute fs ->
  In (lit "..") (split (lit "/") (filename_of (posix cwd) args (absolute ts)))
  <-> ~ (exists ps, ts = fs ++ ps).
Proof.
  intros Hfs Hts Hroot.
  rewrite filename_of_posix, Hroot, posix_relative_absolute by assumption.
  destruct (strip_common_spec fs ts) as (cs & H1 & H2).
  pose proof (strip_common_plain fs ts Hts) as Hr.
  destruct (strip_common fs ts) as [f' r] eqn:Hsc. cbn [fst snd] in *.
  destruct f' as [|f f'].
  - rewrite app_nil_r in H1. subst cs. cbn [length repeat app]. split.
    + intros Hin. exfalso.
      destruct r as [|s r]; [cbn in Hin; now destruct Hin as [?|[]]|].
      rewrite split_join in Hin; [|discriminate|].
      * revert Hr. rewrite forallb_forall. intros Hr.
        specialize (Hr _ Hin). vm_compute in Hr. discriminate.
      * apply plain_segments_Forall in Hr.
        eapply Forall_impl; [exact Hr|]. now intros ? (_ & _ & _ & ?).
    + intros Hn. exfalso. apply Hn. eauto.
  - split.
    + intros _ [ps Hps]. rewrite Hps, strip_common_app in Hsc. discriminate.
    + intros _. rewrite split_join; [now left|discriminate|].
      pose proof (climb_segments_ok (length (f :: f')) r Hr) as Hok.
      eapply Forall_impl; [exact Hok|]. now intros ? [_ ?].
Qed.

End ArchiveNames.

Lemma filename_of_no_separator_witness :
  let win := {| sep := [92]; relative := fun _ to => to |} in
  let args := {| rootPath := []; targetPath := []; groupId := [];
                 artifactId := []; version := [] |} in
  ~ In 92 (filename_of win args [115; 117; 98; 92; 98; 46; 116; 120; 116]).
Proof.
  intros win args.
  apply (filename_of_no_separator win args _ 92); [reflexivity | discriminate].
Defined.

Lemma filename_of_root_is_empty_witness :
  let args := {| rootPath := lit "/srv/theme"; targetPath := lit "/tmp/a.jar";
                 groupId := lit "g"; artifactId := lit "a";
                 version := lit "1.0.0" |} in
  filename_of (posix (lit "/")) args (lit "/srv/./theme/sub/../") = [].
Proof.
  intros args. apply filename_of_root_is_empty. vm_compute. reflexivity.
Defined.

Lemma filename_of_injective_witness :
  let args := {| rootPath := lit "/srv/theme"; targetPath := lit "/tmp/a.jar";
                 groupId := lit "g"; artifactId := lit "a";
                 version := lit "1.0.0" |} in
  filename_of (posix (lit "/")) args
              (absolute [lit "srv"; lit "theme"; lit "a"])
    <> filename_of (posix (lit "/")) args (absolute [lit "srv"; lit "a"]).
Proof.
  intros args.
  apply (filename_of_injective (lit "/") args [lit "srv"; lit "theme"]);
    [reflexivity | reflexivity | reflexivity | reflexivity | discriminate].
Defined.

Lemma filename_of_climbs_iff_outside_witness :
  let args := {| rootPath := lit "/srv/theme"; targetPath := lit "/tmp/a.jar";
                 groupId := lit "g"; artifactId := lit "a";
                 version := lit "1.0.0" |} in
  In (lit "..")
     (split (lit "/")
        (filename_of (posix (lit "/")) args (absolute [lit "etc"; lit "passwd"])))
  <-> ~ (exists ps, [lit "etc"; lit "passwd"] = [lit "srv"; lit "theme"] ++ ps).
Proof.
  intros args.
  apply (filename_of_climbs_iff_outside (lit "/") args); reflexivity.
Defined.

(** ** More on standalone usage *)

(** X15. An environment variable that is set is used as it is, the empty
    string included, whether the other two are set or not: the defaults are
    for variables that are not set. *)
Theorem main_args_env_values (p : Process) :
  (forall a, env p !! lit "ARTIFACT_ID" = Some a ->
             main_artifactId (main_args p) = a)
  /\ (forall g, env p !! lit "GROUP_ID" = Some g ->
                main_groupId (main_args p) = g)
  /\ (forall v, env p !! lit "VERSION" = Some v ->
                main_version (main_args p) = v).
Proof.
  unfold main_args, nullish; cbn.
  split; [|split]; now intros ? ->.
Qed.

Lemma main_args_env_values_witness :
  let p := {| argv := [lit "/usr/bin/ts-node"; lit "jar.ts";
                       lit "dirWithSources"; lit "some-jar.jar"];
              env := <[lit "VERSION" := []]> ∅;
              stderr := []; exitCode := None |} in
  main_version (main_args p) = []
  /\ main_artifactId (main_args p) = lit "artifact".
Proof.
  intros p. split.
  - destruct (main_args_env_values p) as (_ & _ & Hv).
    apply Hv. vm_compute. reflexivity.
  - vm_compute. reflexivity.
Defined.
